(** * Fonoster: voice verb handlers and role-based access

    A shallow embedding of

    - [mods/common/src/identity/hasAccess.ts] ([hasAccess]),
    - [mods/apiserver/src/voice/handlers/Stream.ts] ([streamRequestSchema],
      [streamHandler]) and the hangup handler that follows it
      ([hangupHandler]),
    - the precondition check that follows the [Applications] class in
      [mods/sdk/src/Applications.ts] ([makeCheckNumberPreconditions]).

    The handlers are effectful: they call methods of two collaborators, the
    ARI client and the voice client of a session.  The embedding threads a
    [World] that records every collaborator call in program order, the way a
    mock records its calls, and lets each call either return or throw. *)

From Stdlib Require Import List String Bool ZArith Lia.
From Stdlib.Strings Require Import Byte.
From Stdlib Require Import DecimalString.
Import ListNotations.
Local Open Scope string_scope.
Local Open Scope list_scope.

(* ===================================================================== *)
(** * Part I: definitions *)
(* ===================================================================== *)

(** ** JavaScript values and the operators the handlers use *)

(** What a field of an inbound request can hold at run time.  The
    TypeScript types are erased, so a field typed as an enum may hold any
    value until [streamRequestSchema] has looked at it. *)
Inductive JsValue : Type :=
| JsUndefined
| JsNull
| JsBoolean (b : bool)
| JsNumber (n : Z)
| JsString (s : string).

(** [ToBoolean]: the falsy values are [undefined], [null], [false], [0]
    and the empty string. *)
Definition truthy (v : JsValue) : bool :=
  match v with
  | JsUndefined | JsNull => false
  | JsBoolean b => b
  | JsNumber n => negb (n =? 0)%Z
  | JsString s => negb (s =? "")
  end.

(** [a || b] on values. *)
Definition js_or (a b : JsValue) : JsValue :=
  if truthy a then a else b.

(** [a === b]. *)
Definition js_strict_eq (a b : JsValue) : bool :=
  match a, b with
  | JsUndefined, JsUndefined => true
  | JsNull, JsNull => true
  | JsBoolean x, JsBoolean y => Bool.eqb x y
  | JsNumber x, JsNumber y => (x =? y)%Z
  | JsString x, JsString y => (x =? y)
  | _, _ => false
  end.

(** [String.prototype.includes]: [search] occurs somewhere in [s]. *)
Fixpoint includes (s search : string) : bool :=
  if prefix search s then true
  else match s with
       | EmptyString => false
       | String _ rest => includes rest search
       end.

(** [Array.prototype.includes] on an array of strings. *)
Definition Array_includes (xs : list string) (x : string) : bool :=
  existsb (String.eqb x) xs.

(** ** Errors *)

Inductive Error : Type :=
| ZodError (issues : list string)
    (* thrown by [schema.parse]; one issue path per offending field *)
| TypeError (message : string)
    (* a method looked up on a value that does not have it *)
| ExternalError (message : string).
    (* thrown by a collaborator *)

(** [v.includes(search)] as a method call on an arbitrary value. *)
Definition js_includes (v : JsValue) (search : string) : Error + bool :=
  match v with
  | JsString s => inr (includes s search)
  | JsUndefined | JsNull =>
      inl (TypeError "Cannot read properties of undefined (reading 'includes')")
  | JsBoolean _ | JsNumber _ =>
      inl (TypeError "includes is not a function")
  end.

(** ** Enumerations of [@fonoster/common] *)

(** The enums [StreamDirection], [StreamAudioFormat] and [StreamMessageType]
    are declared in [@fonoster/common], which is not among the sources.  The
    spec gives the members of [StreamDirection] as [enum {IN, OUT, BOTH}] and
    writes a request as [{sessionRef: "S3", direction: "IN"}]: they are
    string enums whose members have their names as values.  The member list
    of [StreamAudioFormat] ([enum {WAV, PCM, ...}] in the spec) is left
    open: the schema takes it as the parameter [formats]. *)

Module StreamDirection.
(** Modelled from the spec: the member [IN] of [StreamDirection]. *)
Definition IN : string := "IN".
(** Modelled from the spec: the member [OUT] of [StreamDirection]. *)
Definition OUT : string := "OUT".
(** Modelled from the spec: the member [BOTH] of [StreamDirection]. *)
Definition BOTH : string := "BOTH".
(** Modelled from the spec: [Object.values(StreamDirection)], the values
    that [z.nativeEnum(StreamDirection)] accepts. *)
Definition values : list string := [IN; OUT; BOTH].
End StreamDirection.

Module StreamAudioFormat.
(** Modelled from the spec: the member [WAV] of [StreamAudioFormat], the
    default format. *)
Definition WAV : string := "WAV".
End StreamAudioFormat.

Module StreamMessageType.
(** Modelled from the spec: the member [AUDIO_OUT] of [StreamMessageType],
    the [type] of a payload that carries outgoing audio. *)
Definition AUDIO_OUT : string := "AUDIO_OUT".
End StreamMessageType.

(** ** Requests and responses *)

Record StartStreamRequest : Type := {
  req_sessionRef : JsValue;
  req_direction : JsValue;
  req_format : JsValue
}.

Record VerbRequest : Type := {
  verb_sessionRef : JsValue
}.

(** A chunk handed to a ["data"] listener. *)
Definition Chunk : Type := list byte.

(** The object literals passed to [voiceClient.sendResponse]. *)
Inductive Response : Type :=
| startStreamResponse (sessionRef : JsValue) (streamRef : string)
| streamPayload (sessionRef : JsValue) (type : string) (data : Chunk)
                (streamRef : string) (format : JsValue)
| hangupResponse (sessionRef : JsValue).

(** ** Collaborators *)

(** Handles of the two collaborator objects. *)
Definition VoiceClient : Type := nat.
Definition AriClient : Type := nat.

(** The callback of [streamHandler],
    [(data) => voiceClient.sendResponse({streamPayload: {...}})],
    as the closure it is: the variables it captured. *)
Record Listener : Type := {
  l_voiceClient : VoiceClient;
  l_sessionRef : JsValue;
  l_effectiveFormat : JsValue
}.

(** A method call on a collaborator. *)
Inductive Call : Type :=
| Call_hangup (ari : AriClient) (channelId : JsValue)
    (* ari.channels.hangup({ channelId }) *)
| Call_sendResponse (vc : VoiceClient) (r : Response)
    (* voiceClient.sendResponse(r) *)
| Call_close (vc : VoiceClient)
    (* voiceClient.close() *)
| Call_on_data (vc : VoiceClient) (l : Listener).
    (* voiceClient.getTranscriptionsStream().on("data", l) *)

(** How a promise returned by a collaborator settles. *)
Inductive Settlement : Type :=
| Fulfilled
| RejectedWith (e : Error).

(** The behaviour of the collaborators, which the handlers do not control:
    given the calls made so far, whether a call throws, and how the promise
    that [ari.channels.hangup] returns settles later. *)
Record Collaborators : Type := {
  throws : list Call -> Call -> option Error;
  hangup_settles : list Call -> JsValue -> Settlement
}.

(** The world outside the handlers: the calls made so far, oldest first,
    and the ["data"] listeners registered so far on each voice client's
    transcriptions stream, in registration order. *)
Record World : Type := {
  calls : list Call;
  subscriptions : list (VoiceClient * Listener)
}.

(** ** The effect monad

    A computation runs in a world and ends in a world, either with a value
    or with a thrown error.  For the body of an [async] function, [inl e] is
    the rejection of the promise it returns and [inr v] its fulfilment. *)
Definition Eff (A : Type) : Type := World -> World * (Error + A).

Definition ret {A : Type} (a : A) : Eff A :=
  fun w => (w, inr a).

Definition bind {A B : Type} (m : Eff A) (k : A -> Eff B) : Eff B :=
  fun w =>
    match m w with
    | (w', inr a) => k a w'
    | (w', inl e) => (w', inl e)
    end.

Definition lift {A : Type} (r : Error + A) : Eff A :=
  fun w => (w, r).

Declare Scope eff_scope.
Delimit Scope eff_scope with eff.
Notation "x <- m ;; k" := (bind m (fun x => k))
  (at level 100, m at next level, right associativity) : eff_scope.
Notation "m ;; k" := (bind m (fun _ => k))
  (at level 100, right associativity) : eff_scope.
Local Open Scope eff_scope.

Definition log_call (c : Call) (w : World) : World :=
  {| calls := calls w ++ [c]; subscriptions := subscriptions w |}.

(** A synchronous method call that returns nothing: it is recorded, and it
    returns or throws as the collaborator decides. *)
Definition invoke (env : Collaborators) (c : Call) : Eff unit :=
  fun w =>
    match throws env (calls w) c with
    | Some e => (log_call c w, inl e)
    | None => (log_call c w, inr tt)
    end.

Definition sendResponse (env : Collaborators) (vc : VoiceClient)
    (r : Response) : Eff unit :=
  invoke env (Call_sendResponse vc r).

Definition close (env : Collaborators) (vc : VoiceClient) : Eff unit :=
  invoke env (Call_close vc).

(** [ari.channels.hangup({ channelId })] returns a promise; only the call
    itself can throw into the caller. *)
Definition channels_hangup (env : Collaborators) (ari : AriClient)
    (channelId : JsValue) : Eff Settlement :=
  fun w =>
    match invoke env (Call_hangup ari channelId) w with
    | (w', inr _) => (w', inr (hangup_settles env (calls w) channelId))
    | (w', inl e) => (w', inl e)
    end.

(** [voiceClient.getTranscriptionsStream().on("data", l)]: an
    [EventEmitter] registers the listener after those already there; it
    neither throws nor calls the listener. *)
Definition on_data (vc : VoiceClient) (l : Listener) : Eff unit :=
  fun w =>
    ({| calls := calls w ++ [Call_on_data vc l];
        subscriptions := subscriptions w ++ [(vc, l)] |}, inr tt).

(** ** The request schema ([Stream.ts], [streamRequestSchema]) *)

(** [z.nativeEnum(E)]: the value is one of the enum's values. *)
Definition nativeEnum (values : list string) (v : JsValue) : bool :=
  match v with
  | JsString s => Array_includes values s
  | _ => false
  end.

(** [.optional()]: [undefined] is accepted as well. *)
Definition optional (check : JsValue -> bool) (v : JsValue) : bool :=
  match v with
  | JsUndefined => true
  | _ => check v
  end.

(** The issues [streamRequestSchema] finds in a request, by field.  The
    schema is [z.object({direction, format})]: it has no entry for
    [sessionRef], and [z.object] ignores the keys it has no entry for. *)
Definition streamRequestSchema_issues (formats : list string)
    (request : StartStreamRequest) : list string :=
  (if optional (nativeEnum StreamDirection.values) (req_direction request)
   then [] else ["direction"])
  ++
  (if optional (nativeEnum formats) (req_format request)
   then [] else ["format"]).

(** [streamRequestSchema.parse(request)]: throws a [ZodError] carrying the
    issues when there are any. *)
Definition streamRequestSchema_parse (formats : list string)
    (request : StartStreamRequest) : Error + unit :=
  match streamRequestSchema_issues formats request with
  | [] => inr tt
  | issues => inl (ZodError issues)
  end.

(** [streamRequestSchema.safeParse(request).success]. *)
Definition streamRequestSchema_accepts (formats : list string)
    (request : StartStreamRequest) : bool :=
  match streamRequestSchema_parse formats request with
  | inr _ => true
  | inl _ => false
  end.

(** ** The uniform error-handling wrapper *)

(** Modelled from the spec: what a wrapped handler hands back to the
    dispatcher, nothing or "a typed error response". *)
Inductive Reply : Type :=
| Void
| ErrorResponse (e : Error).

(** Modelled from the spec: [withErrorHandling] of
    [./utils/withErrorHandling], which is not among the sources.  The spec
    says of it that handler errors "are caught and converted to an error
    response, per a uniform error-handling wrapper" and "never throw past
    the dispatch boundary": the wrapped handler runs the handler and, where
    that throws, resolves with an error response made from the error. *)
Definition withErrorHandling {Req : Type} (handler : Req -> Eff unit)
    (request : Req) : Eff Reply :=
  fun w =>
    match handler request w with
    | (w', inr _) => (w', inr Void)
    | (w', inl e) => (w', inr (ErrorResponse e))
    end.

(** ** [streamHandler] ([Stream.ts]) *)

Definition effectiveDirection (request : StartStreamRequest) : JsValue :=
  js_or (req_direction request) (JsString StreamDirection.BOTH).

Definition effectiveFormat (request : StartStreamRequest) : JsValue :=
  js_or (req_format request) (JsString StreamAudioFormat.WAV).

(** The listener that [streamHandler] registers for a request. *)
Definition stream_listener (voiceClient : VoiceClient)
    (request : StartStreamRequest) : Listener :=
  {| l_voiceClient := voiceClient;
     l_sessionRef := req_sessionRef request;
     l_effectiveFormat := effectiveFormat request |}.

(** The body of the listener: one [sendResponse] with the chunk. *)
Definition run_listener (env : Collaborators) (l : Listener) (data : Chunk)
    : Eff unit :=
  sendResponse env (l_voiceClient l)
    (streamPayload (l_sessionRef l) StreamMessageType.AUDIO_OUT data
       "fixme" (l_effectiveFormat l)).

(** The function passed to [withErrorHandling]. *)
Definition streamHandler_body (env : Collaborators) (formats : list string)
    (voiceClient : VoiceClient) (request : StartStreamRequest) : Eff unit :=
  let sessionRef := req_sessionRef request in
  lift (streamRequestSchema_parse formats request) ;;
  outgoing <- lift (js_includes (effectiveDirection request)
                      StreamDirection.OUT) ;;
  (if outgoing
      || js_strict_eq (effectiveDirection request)
           (JsString StreamDirection.BOTH)
   then on_data voiceClient (stream_listener voiceClient request)
   else ret tt) ;;
  sendResponse env voiceClient (startStreamResponse sessionRef "fixme").

Definition streamHandler (env : Collaborators) (formats : list string)
    (voiceClient : VoiceClient) : StartStreamRequest -> Eff Reply :=
  withErrorHandling (streamHandler_body env formats voiceClient).

(** ** [hangupHandler] *)

(** [voiceClient] may be absent ([undefined]); the handler tests it. *)
Definition hangupHandler (env : Collaborators) (ari : AriClient)
    (voiceClient : option VoiceClient) (hangupReq : VerbRequest) : Eff unit :=
  let sessionRef := verb_sessionRef hangupReq in
  match voiceClient with
  | Some vc =>
      channels_hangup env ari sessionRef ;;
      sendResponse env vc (hangupResponse sessionRef) ;;
      close env vc
  | None => ret tt
  end.

(** ** The transcriptions stream at run time

    The handler body has no [await]: it runs to completion before the
    stream can emit, and every ["data"] event comes after it.  An
    [EventEmitter] calls the listeners of an event one after the other in
    registration order; a listener that throws ends the emission. *)

Definition subscribers (vc : VoiceClient) (w : World) : list Listener :=
  map snd (filter (fun s => Nat.eqb (fst s) vc) (subscriptions w)).

Fixpoint call_listeners (env : Collaborators) (ls : list Listener)
    (data : Chunk) : Eff unit :=
  match ls with
  | [] => ret tt
  | l :: rest => run_listener env l data ;; call_listeners env rest data
  end.

(** One ["data"] event of [vc]'s transcriptions stream. *)
Definition emit_data (env : Collaborators) (vc : VoiceClient) (data : Chunk)
    : Eff unit :=
  fun w => call_listeners env (subscribers vc w) data w.

(** The chunks of a stream, in the order it produces them. *)
Fixpoint emit_all (env : Collaborators) (vc : VoiceClient)
    (chunks : list Chunk) : Eff unit :=
  match chunks with
  | [] => ret tt
  | data :: rest => emit_data env vc data ;; emit_all env vc rest
  end.

(** ** Reading a call log *)

Definition is_startStreamResponse (c : Call) : bool :=
  match c with
  | Call_sendResponse _ (startStreamResponse _ _) => true
  | _ => false
  end.

Definition is_streamPayload (c : Call) : bool :=
  match c with
  | Call_sendResponse _ (streamPayload _ _ _ _ _) => true
  | _ => false
  end.

(** The [streamRef]s handed out in acknowledgments, oldest first. *)
Fixpoint acknowledged_streamRefs (cs : list Call) : list string :=
  match cs with
  | [] => []
  | Call_sendResponse _ (startStreamResponse _ streamRef) :: rest =>
      streamRef :: acknowledged_streamRefs rest
  | _ :: rest => acknowledged_streamRefs rest
  end.

(** ** [hasAccess] ([hasAccess.ts]) *)

(** The fields of [Access] and [Role] ([./types]) that [hasAccess] reads. *)
Record Access : Type := {
  role : string
}.

Record Role : Type := {
  name : string;
  access : list string
}.

(** [roles] is the table of [./roles], which is not among the sources: it
    is a parameter. *)
Definition hasAccess (roles : list Role) (access0 : list Access)
    (method : string) : bool :=
  let roleList := map role access0 in
  existsb
    (fun r =>
       match find (fun role0 =>
                     (name role0 =? r) && Array_includes (access role0) method)
                  roles with
       | Some _ => true
       | None => false
       end)
    roleList.

(** The entries of an access list whose role is in the table. *)
Definition known_role (roles : list Role) (a : Access) : bool :=
  existsb (fun role0 => name role0 =? role a) roles.

(** ** Sample collaborators and inputs *)

(** Collaborators that never throw. *)
Definition reliable : Collaborators :=
  {| throws := fun _ _ => None;
     hangup_settles := fun _ _ => Fulfilled |}.

(** ARI hangs up without throwing, but its promise is rejected. *)
Definition ari_rejects : Collaborators :=
  {| throws := fun _ _ => None;
     hangup_settles :=
       fun _ _ => RejectedWith (ExternalError "Channel not found") |}.

(** A voice client whose [sendResponse] throws. *)
Definition send_fails : Collaborators :=
  {| throws := fun _ c =>
       match c with
       | Call_sendResponse _ _ => Some (ExternalError "stream closed")
       | _ => None
       end;
     hangup_settles := fun _ _ => Fulfilled |}.

(** An ARI client whose [hangup] throws. *)
Definition hangup_fails : Collaborators :=
  {| throws := fun _ c =>
       match c with
       | Call_hangup _ _ => Some (ExternalError "not connected")
       | _ => None
       end;
     hangup_settles := fun _ _ => Fulfilled |}.

Definition fresh : World := {| calls := []; subscriptions := [] |}.

Definition wav_only : list string := [StreamAudioFormat.WAV].

Definition start (sessionRef direction format : JsValue)
    : StartStreamRequest :=
  {| req_sessionRef := sessionRef;
     req_direction := direction;
     req_format := format |}.

Definition chunk1 : Chunk := [x01; x02].

Definition sample_roles : list Role :=
  [ {| name := "OWNER";
       access := ["/fonoster.calls.v1beta2.Calls/CreateCall";
                  "/fonoster.agents.v1beta2.Agents/ListAgents"] |};
    {| name := "USER";
       access := ["/fonoster.agents.v1beta2.Agents/ListAgents"] |} ].

(** ** Vocabulary of the properties *)

(** The stream direction of a request is [OUT] or [BOTH]. *)
Definition relays_out (request : StartStreamRequest) : bool :=
  js_strict_eq (effectiveDirection request) (JsString StreamDirection.OUT)
  || js_strict_eq (effectiveDirection request) (JsString StreamDirection.BOTH).

(** The acknowledgment of a start request. *)
Definition acknowledgment (vc : VoiceClient) (request : StartStreamRequest)
    : Call :=
  Call_sendResponse vc (startStreamResponse (req_sessionRef request) "fixme").

(** The call a listener makes for a chunk. *)
Definition payload_call (data : Chunk) (l : Listener) : Call :=
  Call_sendResponse (l_voiceClient l)
    (streamPayload (l_sessionRef l) StreamMessageType.AUDIO_OUT data
       "fixme" (l_effectiveFormat l)).

(** The calls made on the way from world [w] to world [w']. *)
Definition calls_since (w w' : World) : list Call :=
  skipn (List.length (calls w)) (calls w').

(** [voiceClient.close()] is among the calls [cs]. *)
Definition closes (vc : VoiceClient) (cs : list Call) : bool :=
  existsb (fun c => match c with
                    | Call_close v => Nat.eqb v vc
                    | _ => false
                    end) cs.

(** [sendResponse] never throws. *)
Definition sendResponse_returns (env : Collaborators) : Prop :=
  forall history vc r, throws env history (Call_sendResponse vc r) = None.

(** ** [makeCheckNumberPreconditions]

    The precondition check that follows the [Applications] class in
    [mods/sdk/src/Applications.ts]: a number may name an application only
    if that application exists for the caller's access key. *)

(** [ToString] of a value, as string concatenation applies it to its
    right operand.  How a number prints is the engine's business: it is
    the parameter [number_to_string]. *)
Definition js_to_string (number_to_string : Z -> string) (v : JsValue)
    : string :=
  match v with
  | JsUndefined => "undefined"
  | JsNull => "null"
  | JsBoolean true => "true"
  | JsBoolean false => "false"
  | JsNumber n => number_to_string n
  | JsString s => s
  end.

(** The argument of [checkNumberPreconditions], destructured as
    [{ appRef, accessKeyId }]. *)
Record NumberPreconditions : Type := {
  appRef : JsValue;
  accessKeyId : JsValue
}.

(** The [where] of the query, [{ ref: appRef, accessKeyId }]. *)
Record Where : Type := {
  where_ref : JsValue;
  where_accessKeyId : JsValue
}.

(** A row of the applications table.  The check only tests whether there
    is one. *)
Record ApplicationRow : Type := {
  app_ref : string;
  app_accessKeyId : string
}.

(** The codes of [status] in [@grpc/grpc-js]. *)
Module status.
Definition NOT_FOUND : Z := 5.
End status.

(** What [checkNumberPreconditions] can throw: the [GRPCError] it builds,
    kept as the two arguments of its constructor, or whatever the query
    throws. *)
Inductive PreconditionError : Type :=
| GRPCError (code : Z) (message : string)
| PrismaError (message : string).

(** [prisma.application.findUnique]: for a query, an error, no row
    ([null]) or a row. *)
Record Prisma : Type := {
  application_findUnique : Where -> PreconditionError + option ApplicationRow
}.

(** [makeCheckNumberPreconditions(prisma)]: the queries the returned
    function makes, in order, and how its promise settles. *)
Definition makeCheckNumberPreconditions (number_to_string : Z -> string)
    (prisma : Prisma) (request : NumberPreconditions)
    : list Where * (PreconditionError + unit) :=
  if negb (truthy (appRef request)) then
    (* Not needed to check for the precondition *)
    ([], inr tt)
  else
    let where_ := {| where_ref := appRef request;
                     where_accessKeyId := accessKeyId request |} in
    match application_findUnique prisma where_ with
    | inl e => ([where_], inl e)
    | inr app =>
        match app with
        | None =>
            ([where_],
             inl (GRPCError status.NOT_FOUND
                    (String.append "Application not found for ref: "
                       (js_to_string number_to_string (appRef request)))))
        | Some _ => ([where_], inr tt)
        end
    end.

(** ** More sample collaborators and inputs *)


(** A Prisma client over a table held in memory: the row whose [ref] and
    [accessKeyId] are the strings of the query, if there is one. *)
Definition table_prisma (rows : list ApplicationRow) : Prisma :=
  {| application_findUnique := fun q =>
       match where_ref q, where_accessKeyId q with
       | JsString r, JsString k =>
           inr (find (fun row => (app_ref row =? r)
                                 && (app_accessKeyId row =? k)) rows)
       | _, _ => inr None
       end |}.

(** A Prisma client that has lost its connection. *)
Definition broken_prisma : Prisma :=
  {| application_findUnique := fun _ => inl (PrismaError "connection lost") |}.

Definition sample_rows : list ApplicationRow :=
  [ {| app_ref := "app-1"; app_accessKeyId := "WO-alice" |};
    {| app_ref := "app-2"; app_accessKeyId := "WO-bob" |} ].

(** Decimal printing, which is how an engine prints the integers of
    ordinary size. *)
Definition decimal (n : Z) : string :=
  NilZero.string_of_int (Z.to_int n).

(* ===================================================================== *)
(** * Part II: properties *)
(* ===================================================================== *)

(** ** The effect monad and the collaborators *)

Lemma invoke_run env c w :
  invoke env c w =
  (log_call c w,
   match throws env (calls w) c with Some e => inl e | None => inr tt end).
Proof. unfold invoke. now destruct (throws env (calls w) c). Qed.

Lemma calls_since_app w w' cs :
  calls w' = calls w ++ cs -> calls_since w w' = cs.
Proof.
  intros E. unfold calls_since. rewrite E.
  rewrite skipn_app, skipn_all, Nat.sub_diag. reflexivity.
Qed.

Lemma subscribers_app vc (w w' : World) extra :
  subscriptions w' = subscriptions w ++ extra ->
  subscribers vc w' =
  subscribers vc w ++ map snd (filter (fun s => Nat.eqb (fst s) vc) extra).
Proof.
  intros E. unfold subscribers. now rewrite E, filter_app, map_app.
Qed.

(** ** The schema *)

Lemma nativeEnum_StreamDirection v :
  nativeEnum StreamDirection.values v = true ->
  v = JsString StreamDirection.IN \/ v = JsString StreamDirection.OUT
  \/ v = JsString StreamDirection.BOTH.
Proof.
  destruct v as [| | b | n | s]; simpl; try discriminate.
  unfold Array_includes. simpl.
  rewrite !orb_true_iff, !String.eqb_eq.
  intros [H | [H | [H | H]]]; subst; auto. discriminate.
Qed.

Lemma accepts_iff formats r :
  streamRequestSchema_accepts formats r =
  optional (nativeEnum StreamDirection.values) (req_direction r)
  && optional (nativeEnum formats) (req_format r).
Proof.
  unfold streamRequestSchema_accepts, streamRequestSchema_parse,
    streamRequestSchema_issues.
  destruct (optional _ (req_direction r)), (optional _ (req_format r));
    reflexivity.
Qed.

Lemma accepts_parse formats r :
  streamRequestSchema_accepts formats r = true ->
  streamRequestSchema_parse formats r = inr tt.
Proof.
  unfold streamRequestSchema_accepts.
  destruct (streamRequestSchema_parse formats r) as [e | []];
    [discriminate | reflexivity].
Qed.

Lemma rejects_parse formats r :
  streamRequestSchema_accepts formats r = false ->
  streamRequestSchema_parse formats r =
    inl (ZodError (streamRequestSchema_issues formats r))
  /\ streamRequestSchema_issues formats r <> [].
Proof.
  unfold streamRequestSchema_accepts, streamRequestSchema_parse.
  destruct (streamRequestSchema_issues formats r) as [| i rest].
  - discriminate.
  - intros _. split; [reflexivity | discriminate].
Qed.

(** A request the schema accepts has one of three effective directions. *)
Lemma accepted_direction formats r :
  streamRequestSchema_accepts formats r = true ->
  effectiveDirection r = JsString StreamDirection.IN
  \/ effectiveDirection r = JsString StreamDirection.OUT
  \/ effectiveDirection r = JsString StreamDirection.BOTH.
Proof.
  rewrite accepts_iff, andb_true_iff. intros [Hd _].
  unfold effectiveDirection, js_or.
  destruct (req_direction r) as [| | b | n | s] eqn:E; cbv [optional] in Hd;
    [ simpl; auto | apply nativeEnum_StreamDirection in Hd .. ];
    destruct Hd as [H | [H | H]]; try discriminate;
    injection H as ->; simpl; auto.
Qed.

(** On an accepted request the handler's test of the direction is the test
    for [OUT] or [BOTH], and it does not throw. *)
Lemma accepted_test formats r :
  streamRequestSchema_accepts formats r = true ->
  exists outgoing,
    js_includes (effectiveDirection r) StreamDirection.OUT = inr outgoing
    /\ outgoing
       || js_strict_eq (effectiveDirection r) (JsString StreamDirection.BOTH)
       = relays_out r.
Proof.
  intros H. unfold relays_out.
  destruct (accepted_direction formats r H) as [E | [E | E]]; rewrite E;
    eexists; split; reflexivity.
Qed.

(** ** [streamHandler] *)

(** What the handler body does with an accepted request: it subscribes
    when the direction asks for it, and then sends the acknowledgment. *)
Lemma streamHandler_body_accepted env formats vc r w :
  streamRequestSchema_accepts formats r = true ->
  streamHandler_body env formats vc r w =
  invoke env (acknowledgment vc r)
    (if relays_out r
     then fst (on_data vc (stream_listener vc r) w)
     else w).
Proof.
  intros H. unfold streamHandler_body, bind, lift.
  rewrite (accepts_parse _ _ H).
  destruct (accepted_test formats r H) as [outgoing [-> ->]].
  destruct (relays_out r); reflexivity.
Qed.

Lemma streamHandler_body_rejected env formats vc r w :
  streamRequestSchema_accepts formats r = false ->
  streamHandler_body env formats vc r w =
  (w, inl (ZodError (streamRequestSchema_issues formats r))).
Proof.
  intros H. unfold streamHandler_body, bind, lift.
  destruct (rejects_parse _ _ H) as [-> _]. reflexivity.
Qed.

Lemma streamHandler_accepted_calls env formats vc r w :
  streamRequestSchema_accepts formats r = true ->
  calls (fst (streamHandler env formats vc r w)) =
  calls w
  ++ (if relays_out r then [Call_on_data vc (stream_listener vc r)] else [])
  ++ [acknowledgment vc r].
Proof.
  intros H. unfold streamHandler, withErrorHandling.
  rewrite (streamHandler_body_accepted _ _ _ _ _ H), invoke_run.
  destruct (throws env _ _), (relays_out r); simpl;
    now rewrite <- ?app_assoc.
Qed.

Lemma streamHandler_accepted_subscriptions env formats vc r w :
  streamRequestSchema_accepts formats r = true ->
  subscriptions (fst (streamHandler env formats vc r w)) =
  subscriptions w
  ++ (if relays_out r then [(vc, stream_listener vc r)] else []).
Proof.
  intros H. unfold streamHandler, withErrorHandling.
  rewrite (streamHandler_body_accepted _ _ _ _ _ H), invoke_run.
  destruct (throws env _ _), (relays_out r); simpl;
    now rewrite ?app_nil_r.
Qed.

(** ** The transcriptions stream *)

Lemma run_listener_run env l data w :
  run_listener env l data w =
  (log_call (payload_call data l) w,
   match throws env (calls w) (payload_call data l) with
   | Some e => inl e
   | None => inr tt
   end).
Proof. unfold run_listener, sendResponse. apply invoke_run. Qed.

(** Whatever the collaborators do, listeners only ever add stream payloads
    to the log, and they leave the subscriptions alone. *)
Lemma call_listeners_appends env data ls :
  forall w, exists later,
    calls (fst (call_listeners env ls data w)) = calls w ++ later
    /\ forallb is_streamPayload later = true
    /\ subscriptions (fst (call_listeners env ls data w)) = subscriptions w.
Proof.
  induction ls as [| l rest IH]; intros w; simpl.
  - exists []. now rewrite app_nil_r.
  - unfold bind. rewrite run_listener_run.
    destruct (throws env (calls w) (payload_call data l)).
    + exists [payload_call data l]. simpl. auto.
    + destruct (IH (log_call (payload_call data l) w))
        as [later [Hc [Hp Hs]]].
      exists (payload_call data l :: later). simpl in *.
      rewrite Hc, Hp, Hs, <- app_assoc. auto.
Qed.

Lemma emit_all_appends env vc chunks :
  forall w, exists later,
    calls (fst (emit_all env vc chunks w)) = calls w ++ later
    /\ forallb is_streamPayload later = true
    /\ subscriptions (fst (emit_all env vc chunks w)) = subscriptions w.
Proof.
  induction chunks as [| data rest IH]; intros w; simpl.
  - exists []. now rewrite app_nil_r.
  - unfold bind, emit_data.
    destruct (call_listeners_appends env data (subscribers vc w) w)
      as [first [Hc [Hp Hs]]].
    destruct (call_listeners env (subscribers vc w) data w) as [w1 [e | []]].
    + exists first. auto.
    + destruct (IH w1) as [later [Hc' [Hp' Hs']]]. simpl in *.
      exists (first ++ later).
      rewrite Hc', Hc, Hs', Hs, forallb_app, Hp, Hp', app_assoc. auto.
Qed.

(** With a response channel that takes every payload, each listener is
    called once for the chunk, in registration order. *)
Lemma call_listeners_run env data ls :
  sendResponse_returns env ->
  forall w,
    call_listeners env ls data w =
    ({| calls := calls w ++ map (payload_call data) ls;
        subscriptions := subscriptions w |}, inr tt).
Proof.
  intros Hs. induction ls as [| l rest IH]; intros w; simpl.
  - rewrite app_nil_r. now destruct w.
  - unfold bind. rewrite run_listener_run.
    unfold payload_call at 1. rewrite Hs, IH. simpl.
    now rewrite <- app_assoc.
Qed.

Lemma emit_all_run env vc chunks :
  sendResponse_returns env ->
  forall w,
    emit_all env vc chunks w =
    ({| calls :=
          calls w
          ++ flat_map (fun data => map (payload_call data) (subscribers vc w))
               chunks;
        subscriptions := subscriptions w |}, inr tt).
Proof.
  intros Hs. induction chunks as [| data rest IH]; intros w; simpl.
  - rewrite app_nil_r. now destruct w.
  - unfold bind, emit_data. rewrite (call_listeners_run _ _ _ Hs), IH.
    simpl. now rewrite <- app_assoc.
Qed.

(** ** Claims about [streamHandler] *)

(** C1.  The claim asks for a [streamRef] that is unique and not the
    placeholder.  The code answers every start request, on whichever voice
    client, with the literal ["fixme"], and stamps the same literal on the
    payloads: two streams started for sessions S1 and S2 are acknowledged
    with the same [streamRef]. *)
Theorem streamRef_is_the_placeholder :
  let run :=
    streamHandler reliable wav_only 1
      (start (JsString "S1") JsUndefined JsUndefined) ;;
    streamHandler reliable wav_only 2
      (start (JsString "S2") (JsString "OUT") JsUndefined) ;;
    emit_all reliable 1 [chunk1] in
  acknowledged_streamRefs (calls (fst (run fresh))) = ["fixme"; "fixme"]
  /\ calls_since
       (fst ((streamHandler reliable wav_only 1
                (start (JsString "S1") JsUndefined JsUndefined) ;;
              streamHandler reliable wav_only 2
                (start (JsString "S2") (JsString "OUT") JsUndefined))
               fresh))
       (fst (run fresh))
     = [Call_sendResponse 1
          (streamPayload (JsString "S1") "AUDIO_OUT" chunk1 "fixme"
             (JsString "WAV"))].
Proof. split; reflexivity. Qed.

(** C2.  For a start request that conforms to its schema, the handler makes
    these calls and no others: the subscription to the transcriptions
    stream when the direction is [OUT] or [BOTH], then exactly one
    acknowledgment.  The listener is registered in the world the
    acknowledgment is sent in, and whatever the stream emits afterwards is
    logged behind the acknowledgment: no payload of this subscription
    reaches the response channel before it. *)
Theorem streamHandler_acknowledges_once env formats vc r w :
  streamRequestSchema_accepts formats r = true ->
  let w1 := fst (streamHandler env formats vc r w) in
  calls_since w w1 =
    (if relays_out r then [Call_on_data vc (stream_listener vc r)] else [])
    ++ [acknowledgment vc r]
  /\ calls w1 = calls w ++ calls_since w w1
  /\ filter is_startStreamResponse (calls_since w w1) = [acknowledgment vc r]
  /\ filter is_streamPayload (calls_since w w1) = []
  /\ subscribers vc w1 =
       subscribers vc w
       ++ (if relays_out r then [stream_listener vc r] else [])
  /\ forall chunks, exists later,
       calls (fst (emit_all env vc chunks w1)) = calls w1 ++ later
       /\ forallb is_streamPayload later = true.
Proof.
  intros H w1.
  pose proof (streamHandler_accepted_calls env formats vc r w H) as Hc.
  pose proof (streamHandler_accepted_subscriptions env formats vc r w H) as Hs.
  fold w1 in Hc, Hs.
  rewrite (calls_since_app _ _ _ Hc).
  repeat split.
  - exact Hc.
  - now destruct (relays_out r).
  - now destruct (relays_out r).
  - rewrite (subscribers_app vc w w1 _ Hs).
    destruct (relays_out r); simpl; [now rewrite Nat.eqb_refl | reflexivity].
  - intros chunks.
    destruct (emit_all_appends env vc chunks w1) as [later [Hl [Hp _]]].
    now exists later.
Qed.





(** The wrapped handler never rejects: whatever its body throws comes back
    as an error response. *)
Lemma streamHandler_never_rejects env formats vc r w :
  exists reply, snd (streamHandler env formats vc r w) = inr reply.
Proof.
  unfold streamHandler, withErrorHandling.
  destruct (streamHandler_body env formats vc r w) as [w' [e | []]];
    eexists; reflexivity.
Qed.

(** C7.  When the schema rejects a request, for a direction or a format
    outside its enum, the wrapped handler makes no call on any collaborator
    and resolves with an error response that carries the validation error
    and its issues; it does not reject. *)
Theorem streamHandler_validation_error env formats vc r w :
  streamRequestSchema_accepts formats r = false ->
  streamHandler env formats vc r w =
    (w, inr (ErrorResponse (ZodError (streamRequestSchema_issues formats r))))
  /\ streamRequestSchema_issues formats r <> [].
Proof.
  intros H. split.
  - unfold streamHandler, withErrorHandling.
    now rewrite (streamHandler_body_rejected _ _ _ _ _ H).
  - apply (rejects_parse _ _ H).
Qed.

(** C8, as the claim states it, fails: a request with no [sessionRef]
    passes the schema, which has entries for [direction] and [format] only,
    and is acknowledged with the absent [sessionRef]. *)
Lemma missing_sessionRef_is_accepted :
  streamRequestSchema_parse wav_only
    (start JsUndefined JsUndefined JsUndefined) = inr tt
  /\ streamHandler reliable wav_only 1
       (start JsUndefined JsUndefined JsUndefined) fresh
     = ({| calls :=
             [Call_on_data 1
                {| l_voiceClient := 1; l_sessionRef := JsUndefined;
                   l_effectiveFormat := JsString "WAV" |};
              Call_sendResponse 1 (startStreamResponse JsUndefined "fixme")];
           subscriptions :=
             [(1, {| l_voiceClient := 1; l_sessionRef := JsUndefined;
                     l_effectiveFormat := JsString "WAV" |})] |},
        inr Void).
Proof. split; reflexivity. Qed.

(** C8, amended.  The schema looks at [direction] and [format] only: its
    verdict is the same whatever [sessionRef] holds.  A request with no
    [sessionRef] is rejected exactly when its direction or its format is
    present and outside its enum; otherwise the handler goes on and sends a
    [startStreamResponse] whose [sessionRef] is absent. *)
Theorem schema_ignores_sessionRef env formats vc d f w :
  let r := start JsUndefined d f in
  (forall s,
     streamRequestSchema_parse formats (start s d f)
     = streamRequestSchema_parse formats r)
  /\ streamRequestSchema_accepts formats r
     = optional (nativeEnum StreamDirection.values) d
       && optional (nativeEnum formats) f
  /\ (streamRequestSchema_accepts formats r = true ->
      calls_since w (fst (streamHandler env formats vc r w))
      = (if relays_out r
         then [Call_on_data vc (stream_listener vc r)] else [])
        ++ [Call_sendResponse vc (startStreamResponse JsUndefined "fixme")])
  /\ (streamRequestSchema_accepts formats r = false ->
      streamHandler env formats vc r w
      = (w, inr (ErrorResponse
                   (ZodError (streamRequestSchema_issues formats r))))).
Proof.
  intros r. split; [reflexivity |]. split; [apply accepts_iff |]. split.
  - intros H. apply calls_since_app.
    apply (streamHandler_accepted_calls env formats vc r w H).
  - intros H. unfold streamHandler, withErrorHandling.
    now rewrite (streamHandler_body_rejected _ _ _ _ _ H).
Qed.

(** C9.  The claim asks for an explicit NotImplemented outcome for the
    direction [IN].  The code subscribes to nothing, sends the
    acknowledgment all the same and resolves as for any other request. *)
Theorem direction_IN_is_silently_acknowledged :
  streamHandler reliable wav_only 1
    (start (JsString "S3") (JsString "IN") JsUndefined) fresh
  = ({| calls :=
          [Call_sendResponse 1 (startStreamResponse (JsString "S3") "fixme")];
        subscriptions := [] |},
     inr Void).
Proof. reflexivity. Qed.

(** ** Claims about [hangupHandler] *)

(** The calls of the handler on an active session: each one is made only
    when the one before it has returned. *)
Lemma hangupHandler_active_calls env ari vc req w :
  let sessionRef := verb_sessionRef req in
  let hangup := Call_hangup ari sessionRef in
  let send := Call_sendResponse vc (hangupResponse sessionRef) in
  calls (fst (hangupHandler env ari (Some vc) req w)) =
  calls w ++
  match throws env (calls w) hangup with
  | Some _ => [hangup]
  | None =>
      match throws env (calls w ++ [hangup]) send with
      | Some _ => [hangup; send]
      | None => [hangup; send; Call_close vc]
      end
  end.
Proof.
  intros sessionRef hangup send.
  unfold hangupHandler, bind, channels_hangup, sendResponse, close.
  fold sessionRef. fold hangup. fold send.
  rewrite invoke_run.
  destruct (throws env (calls w) hangup); [reflexivity |].
  rewrite invoke_run. simpl.
  destruct (throws env (calls w ++ [hangup]) send); simpl;
    [now rewrite <- app_assoc |].
  rewrite invoke_run. simpl.
  destruct (throws env ((calls w ++ [hangup]) ++ [send]) (Call_close vc));
    simpl; now rewrite <- !app_assoc.
Qed.

(** C4, as the claim states it, fails: when [sendResponse] throws, the
    handler rejects with that error and [close] is never called. *)
Lemma hangup_send_failure_skips_close :
  let req := {| verb_sessionRef := JsString "S2" |} in
  let result := hangupHandler send_fails 0 (Some 1) req fresh in
  snd result = inl (ExternalError "stream closed")
  /\ calls (fst result)
     = [Call_hangup 0 (JsString "S2");
        Call_sendResponse 1 (hangupResponse (JsString "S2"))]
  /\ closes 1 (calls_since fresh (fst result)) = false.
Proof. repeat split. Qed.

(** C4, amended.  On an active session [close] is reached exactly when
    neither [ari.channels.hangup] nor [sendResponse] throws into the
    handler.  How the promise that [hangup] returns settles is not part of
    the condition: the handler does not wait for it, so a hangup that fails
    by rejecting its promise does not keep the transport from being
    closed. *)
Theorem hangupHandler_closes_iff env ari vc req w :
  let sessionRef := verb_sessionRef req in
  let w' := fst (hangupHandler env ari (Some vc) req w) in
  closes vc (calls_since w w') = true
  <->
  throws env (calls w) (Call_hangup ari sessionRef) = None
  /\ throws env (calls w ++ [Call_hangup ari sessionRef])
       (Call_sendResponse vc (hangupResponse sessionRef)) = None.
Proof.
  intros sessionRef w'.
  pose proof (hangupHandler_active_calls env ari vc req w) as Hc.
  cbv zeta in Hc. fold sessionRef in Hc. fold w' in Hc.
  rewrite (calls_since_app _ _ _ Hc).
  destruct (throws env (calls w) (Call_hangup ari sessionRef)).
  - simpl. split; [discriminate | intros [? _]; discriminate].
  - destruct (throws env _ (Call_sendResponse vc _)).
    + simpl. split; [discriminate | intros [_ ?]; discriminate].
    + simpl. rewrite Nat.eqb_refl. now split.
Qed.

(** The two other ways a hangup can fail.  A rejected promise goes
    unnoticed and the transport is closed; a throw from the call itself
    ends the handler before anything is sent or closed. *)
Example hangup_rejection_still_closes :
  let req := {| verb_sessionRef := JsString "S2" |} in
  hangupHandler ari_rejects 0 (Some 1) req fresh
  = ({| calls := [Call_hangup 0 (JsString "S2");
                  Call_sendResponse 1 (hangupResponse (JsString "S2"));
                  Call_close 1];
        subscriptions := [] |}, inr tt).
Proof. reflexivity. Qed.

Example hangup_throw_skips_the_rest :
  let req := {| verb_sessionRef := JsString "S2" |} in
  hangupHandler hangup_fails 0 (Some 1) req fresh
  = ({| calls := [Call_hangup 0 (JsString "S2")]; subscriptions := [] |},
     inl (ExternalError "not connected")).
Proof. reflexivity. Qed.

(** C5, as the claim states it, fails: the handler never looks at the
    session that the request names.  On a session that has been hung up
    and closed already, a hangup request handled with the same voice
    client hangs up, responds and closes once more. *)
Lemma hangup_on_closed_session_acts_again :
  let req := {| verb_sessionRef := JsString "S2" |} in
  let closed := fst (hangupHandler reliable 0 (Some 1) req fresh) in
  closes 1 (calls closed) = true
  /\ hangupHandler reliable 0 (Some 1) req closed
     = ({| calls :=
             calls closed
             ++ [Call_hangup 0 (JsString "S2");
                 Call_sendResponse 1 (hangupResponse (JsString "S2"));
                 Call_close 1];
           subscriptions := [] |},
        inr tt).
Proof. split; reflexivity. Qed.

(** C5, amended.  What decides is the voice client the handler was made
    with, not the request.  Without a voice client the handler does
    nothing, whatever the request: no hangup, no response, no close, and
    its promise is fulfilled.  With a voice client it always acts,
    whatever [sessionRef] the request holds and whatever was done to the
    session before: its first call is the hangup of the channel that the
    request names. *)
Theorem hangupHandler_noop_iff_no_client env ari voiceClient req w :
  (calls_since w (fst (hangupHandler env ari voiceClient req w)) = []
   <-> voiceClient = None)
  /\ (voiceClient = None ->
      hangupHandler env ari voiceClient req w = (w, inr tt))
  /\ (forall vc, voiceClient = Some vc ->
      exists rest,
        calls_since w (fst (hangupHandler env ari voiceClient req w))
        = Call_hangup ari (verb_sessionRef req) :: rest).
Proof.
  assert (Hactive : forall vc, exists rest,
            calls_since w (fst (hangupHandler env ari (Some vc) req w))
            = Call_hangup ari (verb_sessionRef req) :: rest).
  { intros vc.
    pose proof (hangupHandler_active_calls env ari vc req w) as Hc.
    cbv zeta in Hc.
    destruct (throws env (calls w) (Call_hangup ari (verb_sessionRef req))).
    - eexists. apply calls_since_app. exact Hc.
    - destruct (throws env _ (Call_sendResponse vc _));
        eexists; apply calls_since_app; exact Hc. }
  split; [| split].
  - destruct voiceClient as [vc |].
    + destruct (Hactive vc) as [rest ->]. split; discriminate.
    + split; [reflexivity |]. intros _. simpl.
      unfold calls_since. apply skipn_all.
  - intros ->. reflexivity.
  - intros vc ->. apply Hactive.
Qed.

(** C6.  On an active session whose collaborators take the hangup and the
    response, the handler makes exactly three calls, in this order: the
    hangup of the channel named by the request's [sessionRef], the
    [hangupResponse] with that [sessionRef], and the close of the voice
    client. *)
Theorem hangupHandler_sequence env ari vc req w :
  let sessionRef := verb_sessionRef req in
  throws env (calls w) (Call_hangup ari sessionRef) = None ->
  throws env (calls w ++ [Call_hangup ari sessionRef])
    (Call_sendResponse vc (hangupResponse sessionRef)) = None ->
  calls_since w (fst (hangupHandler env ari (Some vc) req w))
  = [Call_hangup ari sessionRef;
     Call_sendResponse vc (hangupResponse sessionRef);
     Call_close vc].
Proof.
  intros sessionRef Hh Hs. apply calls_since_app.
  pose proof (hangupHandler_active_calls env ari vc req w) as Hc.
  cbv zeta in Hc. fold sessionRef in Hc. now rewrite Hh, Hs in Hc.
Qed.

(** ** Claims about [hasAccess] *)

Lemma Array_includes_In xs x : Array_includes xs x = true <-> In x xs.
Proof.
  unfold Array_includes. rewrite existsb_exists. split.
  - intros [y [Hy E]]. apply String.eqb_eq in E. now subst.
  - intros H. exists x. split; [exact H | apply String.eqb_refl].
Qed.

(** The callback of [some]: [roles.find(...)] is truthy when it finds a
    role, and it finds one when some role has the name and the method. *)
Lemma find_role_iff roles method r :
  match find (fun role0 =>
                (name role0 =? r) && Array_includes (access role0) method)
             roles with
  | Some _ => true
  | None => false
  end = true
  <-> exists role0,
        In role0 roles /\ name role0 = r /\ In method (access role0).
Proof.
  destruct (find _ roles) as [found |] eqn:E.
  - apply find_some in E. destruct E as [Hin Hp].
    apply andb_true_iff in Hp. destruct Hp as [Hn Ha].
    apply String.eqb_eq in Hn. apply Array_includes_In in Ha.
    split; [intros _; now exists found | reflexivity].
  - split; [discriminate |]. intros [role0 [Hin [Hn Ha]]].
    apply (find_none _ _ E) in Hin.
    apply String.eqb_eq in Hn. apply Array_includes_In in Ha.
    now rewrite Hn, Ha in Hin.
Qed.

Lemma unknown_role_grants_nothing roles method a :
  known_role roles a = false ->
  match find (fun role0 =>
                (name role0 =? role a)
                && Array_includes (access role0) method)
             roles with
  | Some _ => true
  | None => false
  end = false.
Proof.
  intros Hk. apply not_true_is_false. intros Hg.
  apply find_role_iff in Hg. destruct Hg as [role0 [Hin [Hn _]]].
  assert (known_role roles a = true) as Hk'.
  { unfold known_role. apply existsb_exists. exists role0.
    split; [exact Hin | now apply String.eqb_eq]. }
  congruence.
Qed.

(** C10.  [hasAccess] answers [true] exactly when some entry of the access
    list names a role of the table whose access list holds the method.  In
    particular the empty access list grants nothing, entries whose role is
    not in the table grant nothing, and leaving them out of an access list
    does not change the answer. *)
Theorem hasAccess_iff roles access0 method :
  (hasAccess roles access0 method = true
   <-> exists a role0,
         In a access0 /\ In role0 roles
         /\ name role0 = role a /\ In method (access role0))
  /\ hasAccess roles [] method = false
  /\ hasAccess roles
       (filter (fun a => negb (known_role roles a)) access0) method = false
  /\ hasAccess roles (filter (known_role roles) access0) method
     = hasAccess roles access0 method.
Proof.
  split; [| split; [reflexivity | split]].
  - unfold hasAccess. rewrite existsb_exists. split.
    + intros [r [Hr Hg]]. apply in_map_iff in Hr.
      destruct Hr as [a [<- Ha]]. apply find_role_iff in Hg.
      destruct Hg as [role0 [Hin [Hn Hm]]]. now exists a, role0.
    + intros [a [role0 [Ha [Hin [Hn Hm]]]]]. exists (role a). split.
      * now apply in_map.
      * apply find_role_iff. now exists role0.
  - unfold hasAccess. induction access0 as [| a rest IH]; [reflexivity |].
    simpl. destruct (known_role roles a) eqn:Hk; simpl; [exact IH |].
    now rewrite (unknown_role_grants_nothing _ _ _ Hk), IH.
  - unfold hasAccess. induction access0 as [| a rest IH]; [reflexivity |].
    simpl. destruct (known_role roles a) eqn:Hk; simpl.
    + now rewrite IH.
    + now rewrite (unknown_role_grants_nothing _ _ _ Hk), IH.
Qed.

(** ** The claims at sample inputs *)

Lemma streamHandler_acknowledges_once_witness :
  streamRequestSchema_accepts wav_only
    (start (JsString "S1") JsUndefined JsUndefined) = true
  /\ calls_since fresh
       (fst (streamHandler reliable wav_only 1
               (start (JsString "S1") JsUndefined JsUndefined) fresh))
     = [Call_on_data 1
          {| l_voiceClient := 1; l_sessionRef := JsString "S1";
             l_effectiveFormat := JsString "WAV" |};
        Call_sendResponse 1 (startStreamResponse (JsString "S1") "fixme")].
Proof.
  split; [reflexivity |].
  apply (streamHandler_acknowledges_once reliable wav_only 1
           (start (JsString "S1") JsUndefined JsUndefined) fresh).
  reflexivity.
Defined.


Lemma streamHandler_validation_error_witness :
  streamRequestSchema_accepts wav_only
    (start (JsString "S1") (JsString "SIDEWAYS") (JsString "MP3")) = false
  /\ streamHandler reliable wav_only 1
       (start (JsString "S1") (JsString "SIDEWAYS") (JsString "MP3")) fresh
     = (fresh, inr (ErrorResponse (ZodError ["direction"; "format"]))).
Proof.
  split; [reflexivity |].
  apply (streamHandler_validation_error reliable wav_only 1
           (start (JsString "S1") (JsString "SIDEWAYS") (JsString "MP3"))
           fresh).
  reflexivity.
Defined.

Lemma hangupHandler_sequence_witness :
  throws ari_rejects (calls fresh) (Call_hangup 0 (JsString "S2")) = None
  /\ throws ari_rejects (calls fresh ++ [Call_hangup 0 (JsString "S2")])
       (Call_sendResponse 1 (hangupResponse (JsString "S2"))) = None
  /\ calls_since fresh
       (fst (hangupHandler ari_rejects 0 (Some 1)
               {| verb_sessionRef := JsString "S2" |} fresh))
     = [Call_hangup 0 (JsString "S2");
        Call_sendResponse 1 (hangupResponse (JsString "S2"));
        Call_close 1].
Proof.
  split; [reflexivity |]. split; [reflexivity |].
  apply (hangupHandler_sequence ari_rejects 0 1
           {| verb_sessionRef := JsString "S2" |} fresh);
    reflexivity.
Defined.

(* ===================================================================== *)
(** * Part III: further properties of the handlers *)
(* ===================================================================== *)

(** ** The schema and the effective direction and format *)

Lemma optional_nativeEnum_iff values v :
  optional (nativeEnum values) v = true
  <-> v = JsUndefined \/ exists s, In s values /\ v = JsString s.
Proof.
  destruct v as [| | b | n | s]; simpl; split; auto;
    try discriminate;
    try (intros [H | [s' [_ H]]]; discriminate).
  - intros H. right. exists s. split; [now apply Array_includes_In | auto].
  - intros [H | [s' [Hin H]]]; [discriminate |].
    injection H as ->. now apply Array_includes_In.
Qed.

(** X1.  The schema accepts a request exactly when its direction is absent
    or one of IN, OUT and BOTH, and its format is absent or one of the
    formats.  [null], numbers, booleans and other strings are rejected. *)
Theorem schema_accepts_members formats r :
  streamRequestSchema_accepts formats r = true
  <-> (req_direction r = JsUndefined
       \/ exists d, In d StreamDirection.values /\ req_direction r = JsString d)
      /\ (req_format r = JsUndefined
          \/ exists f, In f formats /\ req_format r = JsString f).
Proof.
  rewrite accepts_iff, andb_true_iff, !optional_nativeEnum_iff. reflexivity.
Qed.

Lemma accepted_relays_out formats r :
  streamRequestSchema_accepts formats r = true ->
  relays_out r
  = negb (js_strict_eq (req_direction r) (JsString StreamDirection.IN)).
Proof.
  rewrite accepts_iff, andb_true_iff. intros [Hd _].
  apply optional_nativeEnum_iff in Hd. unfold relays_out, effectiveDirection.
  destruct Hd as [-> | [d [Hin ->]]]; [reflexivity |].
  simpl in Hin. destruct Hin as [<- | [<- | [<- | []]]]; reflexivity.
Qed.

(** X2.  An accepted request subscribes to the transcriptions stream unless
    its direction is IN: an absent direction counts as BOTH.  The handler
    registers one listener, behind those already there. *)
Theorem subscribes_unless_IN env formats vc r w :
  streamRequestSchema_accepts formats r = true ->
  subscribers vc (fst (streamHandler env formats vc r w))
  = subscribers vc w
    ++ (if js_strict_eq (req_direction r) (JsString StreamDirection.IN)
        then [] else [stream_listener vc r]).
Proof.
  intros H.
  rewrite (subscribers_app vc w _ _
             (streamHandler_accepted_subscriptions env formats vc r w H)).
  rewrite (accepted_relays_out formats r H).
  destruct (js_strict_eq (req_direction r) (JsString StreamDirection.IN));
    simpl; [reflexivity | now rewrite Nat.eqb_refl].
Qed.

(** X3.  The format stamped on the payloads of an accepted request is a
    string: the requested format when one is given, WAV when none is. *)
Theorem effective_format_is_a_format formats r :
  streamRequestSchema_accepts formats r = true ->
  exists f,
    effectiveFormat r = JsString f
    /\ (f = StreamAudioFormat.WAV \/ In f formats)
    /\ (req_format r = JsUndefined -> f = StreamAudioFormat.WAV)
    /\ (forall g, req_format r = JsString g -> g <> "" -> f = g).
Proof.
  rewrite accepts_iff, andb_true_iff. intros [_ Hf].
  apply optional_nativeEnum_iff in Hf. unfold effectiveFormat, js_or.
  destruct Hf as [-> | [g [Hin ->]]].
  - exists StreamAudioFormat.WAV. simpl.
    split; [reflexivity |]. split; [now left |].
    split; [reflexivity | discriminate].
  - simpl. destruct (g =? "") eqn:E; simpl.
    + exists StreamAudioFormat.WAV.
      split; [reflexivity |]. split; [now left |].
      split; [reflexivity |].
      intros g' H Hne. injection H as <-.
      apply String.eqb_eq in E. contradiction.
    + exists g.
      split; [reflexivity |]. split; [now right |].
      split; [discriminate |].
      intros g' H _. now injection H.
Qed.

(** ** What [streamHandler] reports and what it leaves behind *)



(** X6.  The handler does not look for a listener that is already there.
    Two accepted start requests on one voice client leave two listeners,
    and every chunk is then sent twice, once for each request, in the
    order of the requests. *)
Theorem second_start_doubles_payloads env formats vc r1 r2 w chunks :
  streamRequestSchema_accepts formats r1 = true ->
  streamRequestSchema_accepts formats r2 = true ->
  relays_out r1 = true ->
  relays_out r2 = true ->
  sendResponse_returns env ->
  subscribers vc w = [] ->
  let w1 := fst (streamHandler env formats vc r1 w) in
  let w2 := fst (streamHandler env formats vc r2 w1) in
  calls_since w2 (fst (emit_all env vc chunks w2))
  = flat_map (fun data => [payload_call data (stream_listener vc r1);
                           payload_call data (stream_listener vc r2)])
             chunks.
Proof.
  intros H1 H2 Ho1 Ho2 Hsend Hfresh w1 w2.
  assert (Hsub : subscribers vc w2
                 = [stream_listener vc r1; stream_listener vc r2]).
  { unfold w2, w1.
    rewrite (subscribers_app vc _ _ _
               (streamHandler_accepted_subscriptions env formats vc r2 _ H2)).
    rewrite (subscribers_app vc _ _ _
               (streamHandler_accepted_subscriptions env formats vc r1 w H1)).
    rewrite Ho1, Ho2, Hfresh. simpl. now rewrite Nat.eqb_refl. }
  apply calls_since_app. rewrite (emit_all_run _ _ _ Hsend). simpl.
  now rewrite Hsub.
Qed.

(** X7.  A start request on one voice client leaves the listeners of every
    other voice client's stream as they were. *)
Theorem streamHandler_other_clients env formats vc vc' r w :
  vc' <> vc ->
  subscribers vc' (fst (streamHandler env formats vc r w))
  = subscribers vc' w.
Proof.
  intros Hne. destruct (streamRequestSchema_accepts formats r) eqn:Ha.
  - rewrite (subscribers_app vc' w _ _
               (streamHandler_accepted_subscriptions env formats vc r w Ha)).
    destruct (relays_out r); simpl; rewrite ?app_nil_r; [| reflexivity].
    apply Nat.eqb_neq in Hne. rewrite Nat.eqb_sym, Hne. simpl.
    now rewrite app_nil_r.
  - unfold streamHandler, withErrorHandling.
    now rewrite (streamHandler_body_rejected _ _ _ _ _ Ha).
Qed.

(** ** More about [hangupHandler] *)

Lemma hangupHandler_active_run env ari vc req w :
  let sessionRef := verb_sessionRef req in
  let hangup := Call_hangup ari sessionRef in
  let send := Call_sendResponse vc (hangupResponse sessionRef) in
  hangupHandler env ari (Some vc) req w =
  match throws env (calls w) hangup with
  | Some e => (log_call hangup w, inl e)
  | None =>
      match throws env (calls w ++ [hangup]) send with
      | Some e => (log_call send (log_call hangup w), inl e)
      | None =>
          (log_call (Call_close vc) (log_call send (log_call hangup w)),
           match throws env ((calls w ++ [hangup]) ++ [send])
                   (Call_close vc) with
           | Some e => inl e
           | None => inr tt
           end)
      end
  end.
Proof.
  intros sessionRef hangup send.
  unfold hangupHandler, bind, channels_hangup, sendResponse, close.
  fold sessionRef. fold hangup. fold send.
  rewrite invoke_run.
  destruct (throws env (calls w) hangup); [reflexivity |].
  rewrite invoke_run. simpl.
  destruct (throws env (calls w ++ [hangup]) send); [reflexivity |].
  now rewrite invoke_run.
Qed.

(** X8.  The promise of [hangupHandler] on an active session is fulfilled
    exactly when none of its three calls throws, the close included;
    otherwise it is rejected with the error of the first call that
    throws. *)
Theorem hangupHandler_outcome env ari vc req w :
  let sessionRef := verb_sessionRef req in
  let hangup := Call_hangup ari sessionRef in
  let send := Call_sendResponse vc (hangupResponse sessionRef) in
  snd (hangupHandler env ari (Some vc) req w) =
  match throws env (calls w) hangup with
  | Some e => inl e
  | None =>
      match throws env (calls w ++ [hangup]) send with
      | Some e => inl e
      | None =>
          match throws env (calls w ++ [hangup; send]) (Call_close vc) with
          | Some e => inl e
          | None => inr tt
          end
      end
  end.
Proof.
  intros sessionRef hangup send.
  pose proof (hangupHandler_active_run env ari vc req w) as H.
  cbv zeta in H. fold sessionRef in H. fold hangup in H. fold send in H.
  rewrite H. rewrite <- app_assoc. simpl.
  destruct (throws env (calls w) hangup); [reflexivity |].
  destruct (throws env (calls w ++ [hangup]) send); reflexivity.
Qed.

(** X9.  On an active session the hangup of the channel is always
    attempted, and the calls are an initial part of
    hangup, response, close: the response is never sent without the hangup
    before it, nor the client closed without the response before it. *)
Theorem hangupHandler_calls_in_order env ari vc req w :
  let sessionRef := verb_sessionRef req in
  exists n,
    1 <= n <= 3
    /\ calls_since w (fst (hangupHandler env ari (Some vc) req w))
       = firstn n [Call_hangup ari sessionRef;
                   Call_sendResponse vc (hangupResponse sessionRef);
                   Call_close vc].
Proof.
  intros sessionRef.
  pose proof (hangupHandler_active_calls env ari vc req w) as H.
  cbv zeta in H. fold sessionRef in H.
  destruct (throws env (calls w) (Call_hangup ari sessionRef)).
  - exists 1. split; [lia |]. now apply calls_since_app.
  - destruct (throws env _ (Call_sendResponse vc _)).
    + exists 2. split; [lia |]. now apply calls_since_app.
    + exists 3. split; [lia |]. now apply calls_since_app.
Qed.

(** X10.  The handler never looks at the promise that
    [ari.channels.hangup] returns: against collaborators that throw alike
    it does the same and ends the same, however their promises settle. *)
Theorem hangupHandler_ignores_settlement env1 env2 ari voiceClient req w :
  (forall history c, throws env1 history c = throws env2 history c) ->
  hangupHandler env1 ari voiceClient req w
  = hangupHandler env2 ari voiceClient req w.
Proof.
  intros H. destruct voiceClient as [vc |]; [| reflexivity].
  rewrite !hangupHandler_active_run. cbv zeta. now rewrite !H.
Qed.

(** ** More about [hasAccess] *)

Lemma hasAccess_true_exists roles access0 method :
  hasAccess roles access0 method = true
  <-> exists a role0,
        In a access0 /\ In role0 roles
        /\ name role0 = role a /\ In method (access role0).
Proof.
  unfold hasAccess. rewrite existsb_exists. split.
  - intros [r [Hr Hg]]. apply in_map_iff in Hr.
    destruct Hr as [a [<- Ha]]. apply find_role_iff in Hg.
    destruct Hg as [role0 [Hin [Hn Hm]]]. now exists a, role0.
  - intros [a [role0 [Ha [Hin [Hn Hm]]]]]. exists (role a). split.
    + now apply in_map.
    + apply find_role_iff. now exists role0.
Qed.

Lemma bool_eq_iff (a b : bool) : (a = true <-> b = true) -> a = b.
Proof. destruct a, b; intros [H1 H2]; auto; now (rewrite H1 || rewrite H2). Qed.

(** X13.  Access adds up.  A caller with two access lists has the access
    of either, and a table put together from two tables grants what either
    grants: a role that comes later in the table is not hidden by an
    earlier role of the same name. *)
Theorem hasAccess_adds_up roles roles' access0 access1 method :
  hasAccess roles (access0 ++ access1) method
  = hasAccess roles access0 method || hasAccess roles access1 method
  /\ hasAccess (roles ++ roles') access0 method
     = hasAccess roles access0 method || hasAccess roles' access0 method.
Proof.
  split.
  - unfold hasAccess. now rewrite map_app, existsb_app.
  - apply bool_eq_iff.
    rewrite orb_true_iff, !hasAccess_true_exists. split.
    + intros [a [role0 [Ha [Hin H]]]]. apply in_app_or in Hin.
      destruct Hin as [Hin | Hin]; [left | right]; now exists a, role0.
    + intros [[a [role0 [Ha [Hin H]]]] | [a [role0 [Ha [Hin H]]]]];
        exists a, role0; (split; [exact Ha |]);
        (split; [apply in_or_app; auto | exact H]).
Qed.

(** X14.  Access only grows: what an access list is granted by a table, a
    list with at least its entries is granted by a table with at least its
    roles.  The order of the entries and of the roles, and repetitions, do
    not matter. *)
Theorem hasAccess_monotone roles roles' access0 access1 method :
  incl access0 access1 ->
  incl roles roles' ->
  hasAccess roles access0 method = true ->
  hasAccess roles' access1 method = true.
Proof.
  intros Ha Hr. rewrite !hasAccess_true_exists.
  intros [a [role0 [Hin [Hrole H]]]]. exists a, role0.
  split; [now apply Ha |]. split; [now apply Hr | exact H].
Qed.

(** ** [makeCheckNumberPreconditions] *)

(** X15.  The promise of the check is fulfilled exactly when there is no
    application reference (it is absent, [null] or the empty string) or the
    query for the reference and the caller's
    access key finds a row.  At most one query is made, and it asks for
    both. *)
Theorem checkNumberPreconditions_resolves_iff n2s prisma request :
  let q := {| where_ref := appRef request;
              where_accessKeyId := accessKeyId request |} in
  (snd (makeCheckNumberPreconditions n2s prisma request) = inr tt
   <-> truthy (appRef request) = false
       \/ exists row, application_findUnique prisma q = inr (Some row))
  /\ fst (makeCheckNumberPreconditions n2s prisma request)
     = (if truthy (appRef request) then [q] else []).
Proof.
  intros q. unfold makeCheckNumberPreconditions. fold q.
  destruct (truthy (appRef request)); simpl.
  - destruct (application_findUnique prisma q) as [e | [row |]]; simpl;
      (split; [| reflexivity]); split.
    + discriminate.
    + intros [H | [row H]]; discriminate.
    + intros _. right. now exists row.
    + reflexivity.
    + discriminate.
    + intros [H | [row H]]; discriminate.
  - split; [| reflexivity]. split; auto.
Qed.

(** X16.  When there is an application reference and the query finds no
    row, the promise is rejected with a [GRPCError] whose code is
    NOT_FOUND and whose message ends in the reference; when the query
    itself fails, the promise is rejected with the error of the query. *)
Theorem checkNumberPreconditions_rejects n2s prisma request :
  truthy (appRef request) = true ->
  let q := {| where_ref := appRef request;
              where_accessKeyId := accessKeyId request |} in
  (application_findUnique prisma q = inr None ->
   makeCheckNumberPreconditions n2s prisma request
   = ([q], inl (GRPCError status.NOT_FOUND
                  (String.append "Application not found for ref: "
                     (js_to_string n2s (appRef request))))))
  /\ (forall e, application_findUnique prisma q = inl e ->
      makeCheckNumberPreconditions n2s prisma request = ([q], inl e))
  /\ (forall e, snd (makeCheckNumberPreconditions n2s prisma request) = inl e ->
      application_findUnique prisma q = inl e
      \/ application_findUnique prisma q = inr None).
Proof.
  intros H q. unfold makeCheckNumberPreconditions. fold q. rewrite H. simpl.
  destruct (application_findUnique prisma q) as [e | [row |]]; simpl.
  - split; [discriminate |]. split.
    + intros e' E. now injection E as ->.
    + intros e' E. left. now injection E as ->.
  - split; [discriminate |]. split; intros e E; discriminate.
  - split; [reflexivity |]. split.
    + intros e E. discriminate.
    + intros e _. now right.
Qed.

(** ** The further properties at sample inputs *)

Lemma subscribes_unless_IN_witness :
  streamRequestSchema_accepts wav_only
    (start (JsString "S1") JsUndefined JsUndefined) = true
  /\ subscribers 1
       (fst (streamHandler reliable wav_only 1
               (start (JsString "S1") JsUndefined JsUndefined) fresh))
     = [stream_listener 1 (start (JsString "S1") JsUndefined JsUndefined)].
Proof.
  split; [reflexivity |].
  apply (subscribes_unless_IN reliable wav_only 1
           (start (JsString "S1") JsUndefined JsUndefined) fresh).
  reflexivity.
Defined.

Lemma effective_format_is_a_format_witness :
  streamRequestSchema_accepts wav_only
    (start (JsString "S1") JsUndefined (JsString "WAV")) = true
  /\ exists f,
       effectiveFormat (start (JsString "S1") JsUndefined (JsString "WAV"))
       = JsString f
       /\ (f = StreamAudioFormat.WAV \/ In f wav_only)
       /\ (JsString "WAV" = JsUndefined -> f = StreamAudioFormat.WAV)
       /\ (forall g, JsString "WAV" = JsString g -> g <> "" -> f = g).
Proof.
  split; [reflexivity |].
  apply (effective_format_is_a_format wav_only
           (start (JsString "S1") JsUndefined (JsString "WAV"))).
  reflexivity.
Defined.


Lemma second_start_doubles_payloads_witness :
  let r1 := start (JsString "S1") (JsString "OUT") JsUndefined in
  let r2 := start (JsString "S1") JsUndefined (JsString "WAV") in
  let w2 :=
    fst (streamHandler reliable wav_only 1 r2
           (fst (streamHandler reliable wav_only 1 r1 fresh))) in
  streamRequestSchema_accepts wav_only r1 = true
  /\ streamRequestSchema_accepts wav_only r2 = true
  /\ relays_out r1 = true
  /\ relays_out r2 = true
  /\ sendResponse_returns reliable
  /\ subscribers 1 fresh = []
  /\ calls_since w2 (fst (emit_all reliable 1 [chunk1] w2))
     = [payload_call chunk1 (stream_listener 1 r1);
        payload_call chunk1 (stream_listener 1 r2)].
Proof.
  repeat (split; [first [reflexivity | intros history vc r; reflexivity] |]).
  apply (second_start_doubles_payloads reliable wav_only 1
           (start (JsString "S1") (JsString "OUT") JsUndefined)
           (start (JsString "S1") JsUndefined (JsString "WAV"))
           fresh [chunk1]);
    first [reflexivity | intros history vc r; reflexivity].
Defined.

Lemma streamHandler_other_clients_witness :
  2 <> 1
  /\ subscribers 2
       (fst (streamHandler reliable wav_only 1
               (start (JsString "S1") JsUndefined JsUndefined) fresh))
     = subscribers 2 fresh.
Proof.
  split; [lia |].
  apply (streamHandler_other_clients reliable wav_only 1 2
           (start (JsString "S1") JsUndefined JsUndefined) fresh).
  lia.
Defined.

Lemma hangupHandler_ignores_settlement_witness :
  (forall history c, throws reliable history c = throws ari_rejects history c)
  /\ hangupHandler reliable 0 (Some 1)
       {| verb_sessionRef := JsString "S2" |} fresh
     = hangupHandler ari_rejects 0 (Some 1)
         {| verb_sessionRef := JsString "S2" |} fresh.
Proof.
  split; [intros history c; reflexivity |].
  apply (hangupHandler_ignores_settlement reliable ari_rejects 0 (Some 1)
           {| verb_sessionRef := JsString "S2" |} fresh).
  intros history c. reflexivity.
Defined.

Lemma hasAccess_monotone_witness :
  let user := {| role := "USER" |} in
  let owner := {| role := "OWNER" |} in
  let method := "/fonoster.agents.v1beta2.Agents/ListAgents" in
  incl [user] [owner; user]
  /\ incl (tl sample_roles) sample_roles
  /\ hasAccess (tl sample_roles) [user] method = true
  /\ hasAccess sample_roles [owner; user] method = true.
Proof.
  assert (Ha : incl [ {| role := "USER" |} ]
                    [ {| role := "OWNER" |}; {| role := "USER" |} ]).
  { intros x [<- | []]. right. now left. }
  assert (Hr : incl (tl sample_roles) sample_roles).
  { intros x Hx. now right. }
  split; [exact Ha |]. split; [exact Hr |]. split; [reflexivity |].
  apply (hasAccess_monotone (tl sample_roles) sample_roles
           [ {| role := "USER" |} ]
           [ {| role := "OWNER" |}; {| role := "USER" |} ]
           "/fonoster.agents.v1beta2.Agents/ListAgents" Ha Hr).
  reflexivity.
Defined.

Lemma checkNumberPreconditions_rejects_witness :
  let request := {| appRef := JsString "app-1";
                    accessKeyId := JsString "WO-bob" |} in
  let q := {| where_ref := JsString "app-1";
              where_accessKeyId := JsString "WO-bob" |} in
  truthy (appRef request) = true
  /\ application_findUnique (table_prisma sample_rows) q = inr None
  /\ makeCheckNumberPreconditions decimal (table_prisma sample_rows) request
     = ([q], inl (GRPCError status.NOT_FOUND
                    "Application not found for ref: app-1")).
Proof.
  split; [reflexivity |]. split; [reflexivity |].
  exact (proj1
           (checkNumberPreconditions_rejects decimal
              (table_prisma sample_rows)
              {| appRef := JsString "app-1";
                 accessKeyId := JsString "WO-bob" |}
              eq_refl)
           eq_refl).
Defined.
